(** * The Animal/Dog object model of [generated_v1.c]

    A shallow embedding of the C translation unit: the two structs as byte
    layouts inside a block-structured memory, the four functions
    [Dog_new], [Dog_speak], [Dog_getSecret] and [dog_print] as computations
    in a state-and-undefined-behaviour monad, and the libc functions they
    call ([malloc], [strncpy], [strcpy], [printf]) after ISO C. *)

From Stdlib Require Import Strings.Byte Strings.String.
From stdpp Require Import base option list gmap.

Local Open Scope nat_scope.

(** ** Bytes and C strings *)

(** [c == '\0'] *)
Definition is_nul (c : byte) : bool := Byte.eqb c x00.

(** The characters of the C string that starts a run of readable bytes: the
    bytes before the first terminator.  [None] when the bytes end before a
    terminator is met (the read would leave the object). *)
Fixpoint cstr_of (bs : list byte) : option (list byte) :=
  match bs with
  | [] => None
  | c :: bs' => if is_nul c then Some [] else cons c <$> cstr_of bs'
  end.

(** What [strncpy] reads: at most [n] characters, stopping early at a
    terminator.  [None] when the bytes end first. *)
Fixpoint strn_of (n : nat) (bs : list byte) : option (list byte) :=
  match n with
  | O => Some []
  | S n' =>
      match bs with
      | [] => None
      | c :: bs' => if is_nul c then Some [] else cons c <$> strn_of n' bs'
      end
  end.

(** A text without embedded terminator, as a C string can hold it. *)
Definition nul_free (str : list byte) : Prop := Forall (λ c, is_nul c = false) str.

(** The line feed of the two format strings. *)
Definition LF : byte := x0a.

(** ** Memory: blocks of bytes, pointers with offsets *)

Abbreviation loc := positive.

Inductive ptr : Type :=
  | NULL
  | Ptr (l : loc) (off : nat).

Definition is_null (p : ptr) : bool :=
  match p with NULL => true | Ptr _ _ => false end.

(** The process state the translation unit can observe: the memory blocks,
    what has been written to standard output, and the global variable
    [Dog_species] (a pointer to [const char]). *)
Record state : Type := State {
  heap : gmap loc (list byte);
  stdout : list byte;
  Dog_species : ptr
}.

Definition set_heap (h : gmap loc (list byte)) (s : state) : state :=
  {| heap := h; stdout := stdout s; Dog_species := Dog_species s |}.

Definition set_stdout (o : list byte) (s : state) : state :=
  {| heap := heap s; stdout := o; Dog_species := Dog_species s |}.

(** ** Computations: state passing, [None] is undefined behaviour *)

Definition M (A : Type) : Type := state → option (A * state).

Definition ret {A} (a : A) : M A := λ s, Some (a, s).

Definition bind {A B} (m : M A) (k : A → M B) : M B :=
  λ s, match m s with
       | Some (a, s') => k a s'
       | None => None
       end.

Definition undef {A} : M A := λ _, None.

#[global] Instance M_ret : MRet M := @ret.
#[global] Instance M_bind : MBind M := λ A B k m, bind m k.

(** Reading a global variable. *)
Definition get {A} (var : state → A) : M A := λ s, Some (var s, s).

(** ** Layout of the structs

    [Animal] is [char name[50]]; [Dog] is an [Animal] followed by
    [char secret[50]].  Arrays of [char] need no padding. *)

Definition sizeof_name : nat := 50.
Definition sizeof_secret : nat := 50.
Definition sizeof_Animal : nat := sizeof_name.
Definition off_base : nat := 0.
Definition off_name : nat := 0.
Definition off_secret : nat := off_base + sizeof_Animal.
Definition sizeof_Dog : nat := sizeof_Animal + sizeof_secret.

(** [&p->field], undefined on the null pointer. *)
Definition field (p : ptr) (off : nat) : M ptr :=
  match p with
  | NULL => undef
  | Ptr l o => ret (Ptr l (o + off))
  end.

(** ** Memory accesses *)

(** The C string at [p]. *)
Definition read_cstr (p : ptr) : M (list byte) :=
  λ s, match p with
       | NULL => None
       | Ptr l o =>
           match heap s !! l with
           | Some b => match cstr_of (drop o b) with
                       | Some str => Some (str, s)
                       | None => None
                       end
           | None => None
           end
       end.

(** The at most [n] characters [strncpy] takes from [p]. *)
Definition read_strn (n : nat) (p : ptr) : M (list byte) :=
  λ s, match p with
       | NULL => None
       | Ptr l o =>
           match heap s !! l with
           | Some b => match strn_of n (drop o b) with
                       | Some str => Some (str, s)
                       | None => None
                       end
           | None => None
           end
       end.

(** Writing [bs] at [p]; undefined unless all of it lies inside the block. *)
Definition write_bytes (p : ptr) (bs : list byte) : M unit :=
  λ s, match p with
       | NULL => None
       | Ptr l o =>
           match heap s !! l with
           | Some b =>
               if decide (o + length bs ≤ length b)
               then Some (tt, set_heap (<[l := take o b ++ bs ++ drop (o + length bs) b]> (heap s)) s)
               else None
           | None => None
           end
       end.

(** [*p = c] *)
Definition store (p : ptr) (c : byte) : M unit := write_bytes p [c].

(** Do [n1] bytes at [p1] and [n2] bytes at [p2] share a byte? *)
Definition overlap (p1 : ptr) (n1 : nat) (p2 : ptr) (n2 : nat) : bool :=
  match p1, p2 with
  | Ptr l1 o1, Ptr l2 o2 =>
      bool_decide (l1 = l2) && bool_decide (o1 < o2 + n2) && bool_decide (o2 < o1 + n1)
  | _, _ => false
  end.

(** ** The C library, after ISO C *)

(** What the allocator answers to one request: no memory, or a block at [l]
    whose bytes [fresh_bytes] are indeterminate. *)
Inductive malloc_result : Type :=
  | MallocFail
  | MallocOk (l : loc) (fresh_bytes : list byte).

(** The allocator's contract for a request of [size] bytes in a memory [h]:
    a block it returns has that size and is disjoint from every live one. *)
Definition malloc_ok (size : nat) (h : gmap loc (list byte)) (r : malloc_result) : Prop :=
  match r with
  | MallocFail => True
  | MallocOk l g => h !! l = None ∧ length g = size
  end.

Definition malloc (r : malloc_result) (size : nat) : M ptr :=
  λ s, match r with
       | MallocFail => Some (NULL, s)
       | MallocOk l g => Some (Ptr l 0, set_heap (<[l := g]> (heap s)) s)
       end.

(** [strncpy(dst, src, n)]: the characters of [src] up to [n] of them, then
    terminators until [n] bytes are written.  Overlapping objects are
    undefined. *)
Definition strncpy (dst src : ptr) (n : nat) : M ptr :=
  str ← read_strn n src;
  if overlap dst n src (Nat.min n (S (length str))) then undef
  else write_bytes dst (str ++ replicate (n - length str) x00) ;; ret dst.

(** [strcpy(dst, src)]: the characters of [src] and its terminator. *)
Definition strcpy (dst src : ptr) : M ptr :=
  str ← read_cstr src;
  if overlap dst (S (length str)) src (S (length str)) then undef
  else write_bytes dst (str ++ [x00]) ;; ret dst.

(** A parsed [printf] format: literal text and [%s] conversions. *)
Inductive directive : Type :=
  | Text (bs : list byte)
  | Conv_s.

Fixpoint format (fmt : list directive) (args : list ptr) : M (list byte) :=
  match fmt with
  | [] => ret []
  | Text bs :: fmt' => rest ← format fmt' args; ret (bs ++ rest)
  | Conv_s :: fmt' =>
      match args with
      | [] => undef
      | a :: args' =>
          str ← read_cstr a;
          rest ← format fmt' args';
          ret (str ++ rest)
      end
  end.

Definition emit (out : list byte) : M unit :=
  λ s, Some (tt, set_stdout (stdout s ++ out) s).

Definition printf (fmt : list directive) (args : list ptr) : M unit :=
  out ← format fmt args; emit out.

(** ** String literals

    The two literals the functions name live in read-only blocks of their
    own, terminators included. *)

Definition lit_dog_secret : loc := 1%positive.
Definition lit_species : loc := 2%positive.

Definition dog_secret_text : list byte := list_byte_of_string "dog-secret".
Definition species_text : list byte := list_byte_of_string "Canis familiaris".

(** The state at program start: the literals in place, nothing written,
    [Dog_species] initialised to its literal. *)
Definition init_state : state :=
  {| heap := <[lit_dog_secret := dog_secret_text ++ [x00]]>
               (<[lit_species := species_text ++ [x00]]> ∅);
     stdout := [];
     Dog_species := Ptr lit_species 0 |}.

(** ** The translation unit *)

Definition Dog_new (r : malloc_result) (name : ptr) : M ptr :=
  d ← malloc r sizeof_Dog;
  if is_null d then ret NULL
  else
    d_name ← field d (off_base + off_name);
    strncpy d_name name (sizeof_name - 1) ;;
    d_last ← field d (off_base + off_name + (sizeof_name - 1));
    store d_last x00 ;;
    d_secret ← field d off_secret;
    strcpy d_secret (Ptr lit_dog_secret 0) ;;
    ret d.

Definition Dog_speak (d : ptr) : M unit :=
  d_name ← field d (off_base + off_name);
  printf [Conv_s; Text (list_byte_of_string " says: woof!" ++ [LF])] [d_name].

Definition Dog_getSecret (d : ptr) : M ptr :=
  field d off_secret.

Definition dog_print (d : ptr) : M unit :=
  d_name ← field d (off_base + off_name);
  species ← get Dog_species;
  printf [Text (list_byte_of_string "[Dog] "); Conv_s;
          Text (list_byte_of_string " (species="); Conv_s;
          Text (list_byte_of_string ")" ++ [LF])]
         [d_name; species].

(** ** Reading the fields of a record *)

(** The bytes of [d->base.name] and of [d->secret]. *)
Definition name_bytes (s : state) (d : ptr) : option (list byte) :=
  match d with
  | NULL => None
  | Ptr l o => b ← heap s !! l; Some (take sizeof_name (drop (o + (off_base + off_name)) b))
  end.

Definition secret_bytes (s : state) (d : ptr) : option (list byte) :=
  match d with
  | NULL => None
  | Ptr l o => b ← heap s !! l; Some (take sizeof_secret (drop (o + off_secret) b))
  end.

(** The text a field holds: its bytes up to the terminator, which has to be
    inside the field. *)
Definition Dog_name (s : state) (d : ptr) : option (list byte) :=
  name_bytes s d ≫= cstr_of.

Definition Dog_secret (s : state) (d : ptr) : option (list byte) :=
  secret_bytes s d ≫= cstr_of.

(** ** Runs of the interface *)

Inductive call : Type :=
  | Call_Dog_new (r : malloc_result) (name : ptr)
  | Call_Dog_speak (d : ptr)
  | Call_Dog_getSecret (d : ptr)
  | Call_dog_print (d : ptr).

(** One call that returns: the allocator keeps its contract and the call
    has defined behaviour. *)
Inductive step : state → call → state → Prop :=
  | step_Dog_new r name s d s' :
      malloc_ok sizeof_Dog (heap s) r →
      Dog_new r name s = Some (d, s') →
      step s (Call_Dog_new r name) s'
  | step_Dog_speak d s s' :
      Dog_speak d s = Some (tt, s') →
      step s (Call_Dog_speak d) s'
  | step_Dog_getSecret d s p s' :
      Dog_getSecret d s = Some (p, s') →
      step s (Call_Dog_getSecret d) s'
  | step_dog_print d s s' :
      dog_print d s = Some (tt, s') →
      step s (Call_dog_print d) s'.

Inductive steps : state → list call → state → Prop :=
  | steps_nil s : steps s [] s
  | steps_cons s c s' cs s'' : step s c s' → steps s' cs s'' → steps s (c :: cs) s''.

Definition reachable (s : state) : Prop := ∃ cs, steps init_state cs s.

(** The literals are where the program put them and [Dog_species] points
    to its literal. *)
Record rodata_ok (s : state) : Prop := {
  rodata_dog_secret : heap s !! lit_dog_secret = Some (dog_secret_text ++ [x00]);
  rodata_species : heap s !! lit_species = Some (species_text ++ [x00]);
  rodata_Dog_species : Dog_species s = Ptr lit_species 0
}.

(** The block [Dog_new] leaves behind when [strncpy] took [str] from the
    argument and the allocator handed out the bytes [g]. *)
Definition Dog_image (str g : list byte) : list byte :=
  str ++ replicate (sizeof_name - length str) x00
      ++ dog_secret_text ++ [x00]
      ++ drop (off_secret + S (length dog_secret_text)) g.

(** ** Sample callers

    A caller that holds one text in a block of its own, and the bytes an
    allocator might hand out. *)

Definition caller_block : loc := 3%positive.

Definition caller_state (text : list byte) : state :=
  set_heap (<[caller_block := text ++ [x00]]> (heap init_state)) init_state.

Definition Rex : list byte := list_byte_of_string "Rex".

(** Fifty characters: as long as the name field. *)
Definition fifty : list byte :=
  list_byte_of_string "abcdefghijklmnopqrstuvwxyzABCDEFGHIJKLMNOPQRSTUVWX".

Definition stale_bytes : list byte := replicate sizeof_Dog xff.

Definition new_block : loc := 7%positive.
Definition other_block : loc := 9%positive.

(** Fifty-two characters that agree with [fifty] on the first 49. *)
Definition fifty_two : list byte :=
  list_byte_of_string "abcdefghijklmnopqrstuvwxyzABCDEFGHIJKLMNOPQRSTUVW#$%".

(** A caller that holds both, the second right after the first. *)
Definition two_names_state : state := caller_state (fifty ++ [x00] ++ fifty_two).

(** The state a computation ends in ([s] itself when it is undefined). *)
Definition state_after {A} (m : M A) (s : state) : state :=
  match m s with
  | Some (_, s') => s'
  | None => s
  end.

(** Rex has been constructed. *)
Definition Rex_dog : ptr := Ptr new_block 0.

Definition Rex_state : state :=
  state_after (Dog_new (MallocOk new_block stale_bytes) (Ptr caller_block 0))
              (caller_state Rex).

(** Rex speaks, a second dog is constructed whose name is read from Rex's
    own secret field, Rex is printed. *)
Definition Rex_calls : list call :=
  [Call_Dog_speak Rex_dog;
   Call_Dog_new (MallocOk other_block stale_bytes) (Ptr new_block off_secret);
   Call_dog_print Rex_dog].

Definition Rex_state_later : state :=
  state_after (Dog_speak Rex_dog ;;
               Dog_new (MallocOk other_block stale_bytes) (Ptr new_block off_secret) ;;
               dog_print Rex_dog)
              Rex_state.

(** ** Kinds of calls, repeated calls *)

(** The calls that write nothing to standard output. *)
Definition silent (c : call) : bool :=
  match c with
  | Call_Dog_new _ _ | Call_Dog_getSecret _ => true
  | Call_Dog_speak _ | Call_dog_print _ => false
  end.

(** The calls in which the allocator hands out a block. *)
Definition allocates (c : call) : bool :=
  match c with
  | Call_Dog_new (MallocOk _ _) _ => true
  | _ => false
  end.

(** [n] calls in a row. *)
Fixpoint times (n : nat) (m : M unit) : M unit :=
  match n with
  | O => ret tt
  | S n' => m ;; times n' m
  end.

(** A caller whose buffer holds 49 characters and no terminator. *)
Definition unterminated_state : state :=
  set_heap (<[caller_block := take (sizeof_name - 1) fifty]> (heap init_state)) init_state.

(** * Properties *)

(** ** C strings *)

Lemma is_nul_true c : is_nul c = true ↔ c = x00.
Proof.
  unfold is_nul. split.
  - apply byte_dec_bl.
  - intros ->. reflexivity.
Qed.

Lemma cstr_of_app str rest :
  nul_free str → cstr_of (str ++ x00 :: rest) = Some str.
Proof.
  induction 1 as [|c str Hc _ IH]; simpl; [done|].
  by rewrite Hc, IH.
Qed.

Lemma cstr_of_inv bs str :
  cstr_of bs = Some str → nul_free str ∧ ∃ rest, bs = str ++ x00 :: rest.
Proof.
  revert str. induction bs as [|c bs IH]; intros str; simpl; [done|].
  destruct (is_nul c) eqn:Hc.
  - intros [= <-]. apply is_nul_true in Hc as ->. split; [constructor | by exists bs].
  - destruct (cstr_of bs) as [str'|]; simpl; [|done].
    intros [= <-]. destruct (IH str' eq_refl) as [Hfree [rest ->]].
    split; [by constructor | by exists rest].
Qed.

Lemma strn_of_length n bs str : strn_of n bs = Some str → length str ≤ n.
Proof.
  revert bs str. induction n as [|n IH]; intros bs str; simpl.
  - intros [= <-]. simpl. lia.
  - destruct bs as [|c bs]; [done|]. destruct (is_nul c).
    + intros [= <-]. simpl. lia.
    + destruct (strn_of n bs) as [str'|] eqn:E; simpl; [|done].
      intros [= <-]. simpl. apply IH in E. lia.
Qed.

Lemma strn_of_cstr n bs str :
  cstr_of bs = Some str → strn_of n bs = Some (take n str).
Proof.
  revert bs str. induction n as [|n IH]; intros bs str; simpl.
  - by rewrite take_0.
  - destruct bs as [|c bs]; simpl; [done|]. destruct (is_nul c).
    + by intros [= <-].
    + destruct (cstr_of bs) as [str'|] eqn:E; simpl; [|done].
      intros [= <-]. by rewrite (IH _ _ E).
Qed.

(** A terminator inside the first [n] bytes is the one every longer read
    stops at. *)
Lemma cstr_of_take n bs str :
  cstr_of (take n bs) = Some str → cstr_of bs = Some str.
Proof.
  revert bs str. induction n as [|n IH]; intros bs str.
  - by rewrite take_0.
  - destruct bs as [|c bs]; simpl; [done|]. destruct (is_nul c); [done|].
    destruct (cstr_of (take n bs)) as [str'|] eqn:E; simpl; [|done].
    intros [= <-]. by rewrite (IH _ _ E).
Qed.

(** ** Memory *)

Lemma set_heap_set_heap h h' s : set_heap h (set_heap h' s) = set_heap h s.
Proof. reflexivity. Qed.

Lemma read_strn_inv n p s str s' :
  read_strn n p s = Some (str, s') →
  s' = s ∧ length str ≤ n ∧
  ∃ l o b, p = Ptr l o ∧ heap s !! l = Some b ∧ strn_of n (drop o b) = Some str.
Proof.
  unfold read_strn. destruct p as [|l o]; [done|].
  destruct (heap s !! l) as [b|] eqn:Hb; [|done].
  destruct (strn_of n (drop o b)) as [str'|] eqn:E; [|done].
  intros [= <- <-]. split; [done|]. split; [by eapply strn_of_length|].
  by exists l, o, b.
Qed.

Lemma read_cstr_inv p s str s' :
  read_cstr p s = Some (str, s') →
  s' = s ∧ ∃ l o b, p = Ptr l o ∧ heap s !! l = Some b ∧ cstr_of (drop o b) = Some str.
Proof.
  unfold read_cstr. destruct p as [|l o]; [done|].
  destruct (heap s !! l) as [b|] eqn:Hb; [|done].
  destruct (cstr_of (drop o b)) as [str'|] eqn:E; [|done].
  intros [= <- <-]. split; [done|]. by exists l, o, b.
Qed.

Lemma read_cstr_at l o b str s :
  heap s !! l = Some b → cstr_of (drop o b) = Some str →
  read_cstr (Ptr l o) s = Some (str, s).
Proof. intros Hb Hstr. unfold read_cstr. by rewrite Hb, Hstr. Qed.

Lemma write_bytes_at l o b bs s :
  heap s !! l = Some b → o + length bs ≤ length b →
  write_bytes (Ptr l o) bs s
  = Some (tt, set_heap (<[l := take o b ++ bs ++ drop (o + length bs) b]> (heap s)) s).
Proof.
  intros Hb Hle. unfold write_bytes. rewrite Hb. by rewrite decide_True.
Qed.

(** The same, with the block given as what lies before the write and what
    the write runs over. *)
Lemma write_bytes_split l pre rest bs s :
  heap s !! l = Some (pre ++ rest) → length bs ≤ length rest →
  write_bytes (Ptr l (length pre)) bs s
  = Some (tt, set_heap (<[l := pre ++ bs ++ drop (length bs) rest]> (heap s)) s).
Proof.
  intros Hb Hle. rewrite (write_bytes_at _ _ _ _ _ Hb).
  - by rewrite take_app_length, drop_app_add.
  - rewrite length_app. lia.
Qed.

Lemma Dog_image_length str g :
  length str < sizeof_name → length g = sizeof_Dog →
  length (Dog_image str g) = sizeof_Dog.
Proof.
  unfold Dog_image, sizeof_Dog, sizeof_Animal, sizeof_secret, off_secret, off_base.
  intros Hstr Hg. rewrite !length_app, length_replicate, length_drop, Hg.
  unfold sizeof_Animal, sizeof_name in *. simpl. lia.
Qed.

Lemma Dog_new_MallocOk l g name s :
  heap s !! lit_dog_secret = Some (dog_secret_text ++ [x00]) →
  heap s !! l = None →
  length g = sizeof_Dog →
  Dog_new (MallocOk l g) name s =
    match read_strn (sizeof_name - 1) name (set_heap (<[l := g]> (heap s)) s) with
    | Some (str, _) =>
        if overlap (Ptr l 0) (sizeof_name - 1) name (Nat.min (sizeof_name - 1) (S (length str)))
        then None
        else Some (Ptr l 0, set_heap (<[l := Dog_image str g]> (heap s)) s)
    | None => None
    end.
Proof.
  intros Hlit Hfresh Hlen.
  assert (Hne : l ≠ lit_dog_secret) by (intros ->; congruence).
  cbv beta iota delta [Dog_new mbind M_bind bind malloc field store ret undef is_null strncpy].
  change (0 + (off_base + off_name)) with 0.
  change (0 + (off_base + off_name + (sizeof_name - 1))) with 49.
  change (0 + off_secret) with 50.
  destruct (read_strn (sizeof_name - 1) name _) as [[str s1]|] eqn:Hrd; [|done].
  apply read_strn_inv in Hrd as (-> & Hstr & _).
  destruct (overlap _ _ _ _); [done|].
  set (bs := str ++ replicate (sizeof_name - 1 - length str) x00).
  assert (Hbs : length bs = 49).
  { unfold bs. rewrite length_app, length_replicate. unfold sizeof_name in *. lia. }
  assert (Hg : length g = 100) by done.
  (* strncpy *)
  rewrite (write_bytes_split l [] g bs); cycle 1.
  { apply lookup_insert_eq. }
  { lia. }
  cbv beta iota. rewrite set_heap_set_heap. cbn [heap set_heap]. rewrite insert_insert_eq.
  (* the terminator *)
  rewrite Hbs, app_nil_l. rewrite <- Hbs at 1.
  rewrite (write_bytes_split l bs (drop 49 g) [x00]); cycle 1.
  { apply lookup_insert_eq. }
  { rewrite length_drop, Hg. simpl. lia. }
  cbv beta iota. rewrite set_heap_set_heap. cbn [heap set_heap]. rewrite insert_insert_eq.
  (* strcpy *)
  unfold strcpy, mbind, M_bind, bind.
  rewrite (read_cstr_at lit_dog_secret 0 (dog_secret_text ++ [x00]) dog_secret_text); cycle 1.
  { cbn [heap set_heap]. by rewrite lookup_insert_ne. }
  { reflexivity. }
  replace (overlap _ _ _ _) with false; cycle 1.
  { unfold overlap. by rewrite (bool_decide_eq_false_2 _ Hne). }
  rewrite (app_assoc bs [x00]).
  replace 50 with (length (bs ++ [x00])) by (rewrite length_app, Hbs; reflexivity).
  rewrite (write_bytes_split l (bs ++ [x00]) (drop (length [x00]) (drop 49 g))
             (dog_secret_text ++ [x00])); cycle 1.
  { apply lookup_insert_eq. }
  { rewrite !length_drop, Hg. simpl. lia. }
  cbv beta iota. rewrite set_heap_set_heap. cbn [heap set_heap]. rewrite insert_insert_eq.
  do 3 f_equal. unfold Dog_image, bs.
  rewrite !drop_drop.
  replace (sizeof_name - length str) with (S (sizeof_name - 1 - length str))
    by (unfold sizeof_name in *; lia).
  rewrite replicate_S_end. rewrite <- !app_assoc. reflexivity.
Qed.

Lemma strn_of_nul_free n bs str : strn_of n bs = Some str → nul_free str.
Proof.
  revert bs str. induction n as [|n IH]; intros bs str; simpl.
  - intros [= <-]. constructor.
  - destruct bs as [|c bs]; [done|]. destruct (is_nul c) eqn:Hc.
    + intros [= <-]. constructor.
    + destruct (strn_of n bs) as [str'|] eqn:E; simpl; [|done].
      intros [= <-]. constructor; [done | by eapply IH].
Qed.

Lemma read_strn_of_cstr n p s str s' :
  read_cstr p s = Some (str, s') → read_strn n p s = Some (take n str, s).
Proof.
  intros (-> & l & o & b & -> & Hb & Hstr)%read_cstr_inv.
  unfold read_strn. by rewrite Hb, (strn_of_cstr n _ _ Hstr).
Qed.

(** A read that is defined before an allocation reads the same after it
    and stays clear of the new block. *)
Lemma read_strn_fresh n p s str s' l g :
  heap s !! l = None →
  read_strn n p s = Some (str, s') →
  read_strn n p (set_heap (<[l := g]> (heap s)) s)
  = Some (str, set_heap (<[l := g]> (heap s)) s)
  ∧ ∀ o k k', overlap (Ptr l o) k p k' = false.
Proof.
  intros Hfresh (-> & _ & lp & op & b & -> & Hb & Hstr)%read_strn_inv.
  assert (l ≠ lp) by (intros ->; congruence).
  split.
  - unfold read_strn. cbn [heap set_heap]. by rewrite lookup_insert_ne, Hb, Hstr.
  - intros o k k'. unfold overlap. by rewrite bool_decide_eq_false_2.
Qed.

(** [Dog_new] on an argument [strncpy] can read. *)
Lemma Dog_new_strn l g name s str s0 :
  heap s !! lit_dog_secret = Some (dog_secret_text ++ [x00]) →
  heap s !! l = None →
  length g = sizeof_Dog →
  read_strn (sizeof_name - 1) name s = Some (str, s0) →
  Dog_new (MallocOk l g) name s
  = Some (Ptr l 0, set_heap (<[l := Dog_image str g]> (heap s)) s).
Proof.
  intros Hlit Hfresh Hlen Hrd.
  rewrite Dog_new_MallocOk by done.
  destruct (read_strn_fresh _ _ _ _ _ l g Hfresh Hrd) as [-> Hov].
  by rewrite Hov.
Qed.

(** Every call of [Dog_new] that gets memory and returns leaves an image. *)
Lemma Dog_new_returns l g name s d s' :
  heap s !! lit_dog_secret = Some (dog_secret_text ++ [x00]) →
  heap s !! l = None →
  length g = sizeof_Dog →
  Dog_new (MallocOk l g) name s = Some (d, s') →
  ∃ str, nul_free str ∧ length str ≤ sizeof_name - 1 ∧
         d = Ptr l 0 ∧ s' = set_heap (<[l := Dog_image str g]> (heap s)) s.
Proof.
  intros Hlit Hfresh Hlen. rewrite Dog_new_MallocOk by done.
  destruct (read_strn _ _ _) as [[str s1]|] eqn:Hrd; [|done].
  destruct (overlap _ _ _ _); [done|]. intros [= <- <-].
  pose proof Hrd as (_ & Hle & lp & op & bp & _ & _ & Hstr)%read_strn_inv.
  exists str. by split; [eapply strn_of_nul_free|].
Qed.

Lemma Dog_new_MallocFail name s : Dog_new MallocFail name s = Some (NULL, s).
Proof. reflexivity. Qed.

(** ** The fields of an image *)

Lemma cstr_of_padded str k :
  nul_free str → cstr_of (str ++ replicate (S k) x00) = Some str.
Proof. intros Hfree. simpl. by apply cstr_of_app. Qed.

Lemma image_name_bytes str g :
  length str ≤ sizeof_name - 1 →
  take sizeof_name (drop (0 + (off_base + off_name)) (Dog_image str g))
  = str ++ replicate (sizeof_name - length str) x00.
Proof.
  intros Hle. unfold Dog_image. change (0 + (off_base + off_name)) with 0.
  rewrite drop_0, app_assoc. apply take_app_length'.
  rewrite length_app, length_replicate. lia.
Qed.

Lemma image_secret_bytes str g :
  length str ≤ sizeof_name - 1 →
  length g = sizeof_Dog →
  take sizeof_secret (drop (0 + off_secret) (Dog_image str g))
  = dog_secret_text ++ [x00] ++ drop (off_secret + S (length dog_secret_text)) g.
Proof.
  intros Hle Hg. unfold Dog_image. rewrite app_assoc.
  rewrite drop_app_length'; cycle 1.
  { rewrite length_app, length_replicate.
    unfold off_secret, off_base, sizeof_Animal, sizeof_name in *. lia. }
  apply take_ge. rewrite !length_app, length_drop, Hg. vm_compute. lia.
Qed.

Lemma image_Dog_name l str g h s :
  nul_free str → length str ≤ sizeof_name - 1 →
  Dog_name (set_heap (<[l := Dog_image str g]> h) s) (Ptr l 0) = Some str.
Proof.
  intros Hfree Hle. unfold Dog_name, name_bytes. cbn [heap set_heap].
  rewrite lookup_insert_eq. cbn [mbind option_bind].
  rewrite image_name_bytes by done.
  replace (sizeof_name - length str) with (S (sizeof_name - 1 - length str))
    by (unfold sizeof_name in *; lia).
  by apply cstr_of_padded.
Qed.

Lemma image_Dog_secret l str g h s :
  length str ≤ sizeof_name - 1 → length g = sizeof_Dog →
  Dog_secret (set_heap (<[l := Dog_image str g]> h) s) (Ptr l 0) = Some dog_secret_text.
Proof.
  intros Hle Hg. unfold Dog_secret, secret_bytes. cbn [heap set_heap].
  rewrite lookup_insert_eq. cbn [mbind option_bind].
  rewrite image_secret_bytes by done.
  apply cstr_of_app. unfold nul_free. by repeat constructor.
Qed.

(** ** Output *)

Lemma format_state fmt args s out s' :
  format fmt args s = Some (out, s') → s' = s.
Proof.
  revert args out s'. induction fmt as [|[bs|] fmt IH]; intros args out s'.
  - by intros [= _ <-].
  - cbn [format]. unfold mbind, M_bind, bind, ret.
    destruct (format fmt args s) as [[rest s1]|] eqn:E; [|done].
    intros [= _ <-]. by eapply IH.
  - cbn [format]. destruct args as [|a args]; [done|].
    unfold mbind, M_bind, bind, ret.
    destruct (read_cstr a s) as [[str s1]|] eqn:Ha; [|done].
    apply read_cstr_inv in Ha as [-> _].
    destruct (format fmt args s) as [[rest s2]|] eqn:E; [|done].
    intros [= _ <-]. by eapply IH.
Qed.

Lemma printf_state fmt args s u s' :
  printf fmt args s = Some (u, s') → ∃ out, s' = set_stdout (stdout s ++ out) s.
Proof.
  unfold printf, mbind, M_bind, bind, emit.
  destruct (format fmt args s) as [[out s1]|] eqn:E; [|done].
  apply format_state in E as ->. intros [= _ <-]. by exists out.
Qed.

(** The text of a field is what a read from the field's address sees. *)
Lemma Dog_name_read s d nm :
  Dog_name s d = Some nm →
  ∃ l o, d = Ptr l o ∧ read_cstr (Ptr l (o + (off_base + off_name))) s = Some (nm, s).
Proof.
  unfold Dog_name, name_bytes. destruct d as [|l o]; [done|].
  destruct (heap s !! l) as [b|] eqn:Hb; [|done]. cbn [mbind option_bind].
  intros Hnm%cstr_of_take. exists l, o. split; [done|]. by eapply read_cstr_at.
Qed.

Lemma Dog_secret_read s d txt :
  Dog_secret s d = Some txt →
  ∃ l o, d = Ptr l o ∧ read_cstr (Ptr l (o + off_secret)) s = Some (txt, s).
Proof.
  unfold Dog_secret, secret_bytes. destruct d as [|l o]; [done|].
  destruct (heap s !! l) as [b|] eqn:Hb; [|done]. cbn [mbind option_bind].
  intros Hnm%cstr_of_take. exists l, o. split; [done|]. by eapply read_cstr_at.
Qed.

Lemma Dog_speak_emits s d nm :
  Dog_name s d = Some nm →
  Dog_speak d s
  = Some (tt, set_stdout (stdout s ++ nm ++ list_byte_of_string " says: woof!" ++ [LF]) s).
Proof.
  intros (l & o & -> & Hrd)%Dog_name_read.
  cbv beta iota delta [Dog_speak field printf format emit mbind M_bind bind ret].
  rewrite Hrd. by rewrite app_nil_r.
Qed.

Lemma dog_print_emits s d nm sp s0 :
  Dog_name s d = Some nm →
  read_cstr (Dog_species s) s = Some (sp, s0) →
  dog_print d s
  = Some (tt, set_stdout (stdout s ++ list_byte_of_string "[Dog] " ++ nm
                            ++ list_byte_of_string " (species=" ++ sp
                            ++ list_byte_of_string ")" ++ [LF]) s).
Proof.
  intros (l & o & -> & Hrd)%Dog_name_read Hsp.
  pose proof Hsp as [-> _]%read_cstr_inv.
  cbv beta iota delta [dog_print field printf format emit get mbind M_bind bind ret].
  rewrite Hrd, Hsp. by rewrite app_nil_r.
Qed.

Lemma Dog_speak_state d s u s' :
  Dog_speak d s = Some (u, s') → ∃ out, s' = set_stdout (stdout s ++ out) s.
Proof.
  unfold Dog_speak, field. destruct d as [|l o]; [done|]. apply printf_state.
Qed.

Lemma dog_print_state d s u s' :
  dog_print d s = Some (u, s') → ∃ out, s' = set_stdout (stdout s ++ out) s.
Proof.
  unfold dog_print, field. destruct d as [|l o]; [done|]. apply printf_state.
Qed.

Lemma Dog_getSecret_state d s p s' :
  Dog_getSecret d s = Some (p, s') →
  s' = s ∧ ∃ l o, d = Ptr l o ∧ p = Ptr l (o + off_secret).
Proof.
  unfold Dog_getSecret, field. destruct d as [|l o]; [done|].
  intros [= <- <-]. split; [done|]. by exists l, o.
Qed.

(** ** What a run preserves *)

Lemma rodata_ok_init : rodata_ok init_state.
Proof. by split. Qed.

(** Every call keeps the live blocks as they are (a construction adds one),
    the literals and [Dog_species] included. *)
Lemma step_frame s c s' :
  rodata_ok s → step s c s' →
  rodata_ok s'
  ∧ Dog_species s' = Dog_species s
  ∧ ∀ l b, heap s !! l = Some b → heap s' !! l = Some b.
Proof.
  intros Hro Hstep.
  assert (Dog_species s' = Dog_species s
          ∧ ∀ l b, heap s !! l = Some b → heap s' !! l = Some b) as [Hsp Hheap].
  { destruct Hstep as [r name s d s' Hm Hnew|d s s' H|d s p s' H|d s s' H].
    - destruct r as [|l g].
      + by injection Hnew as _ <-.
      + destruct Hm as [Hfresh Hlen].
        destruct (Dog_new_returns _ _ _ _ _ _ (rodata_dog_secret _ Hro) Hfresh Hlen Hnew)
          as (str & _ & _ & _ & ->).
        split; [done|]. intros l' b Hb. cbn [heap set_heap].
        rewrite lookup_insert_ne; [done|]. intros ->. congruence.
    - by apply Dog_speak_state in H as [out ->].
    - by apply Dog_getSecret_state in H as [-> _].
    - by apply dog_print_state in H as [out ->]. }
  split; [|done].
  destruct Hro as [H1 H2 H3]. split; [by apply Hheap | by apply Hheap | congruence].
Qed.

Lemma steps_frame s cs s' :
  rodata_ok s → steps s cs s' →
  rodata_ok s'
  ∧ Dog_species s' = Dog_species s
  ∧ ∀ l b, heap s !! l = Some b → heap s' !! l = Some b.
Proof.
  intros Hro Hsteps. induction Hsteps as [s|s c s1 cs s2 Hstep _ IH]; [done|].
  destruct (step_frame _ _ _ Hro Hstep) as (Hro1 & Hsp1 & Hheap1).
  destruct (IH Hro1) as (Hro2 & Hsp2 & Hheap2).
  split; [done|]. split; [congruence|]. auto.
Qed.

Lemma reachable_rodata_ok s : reachable s → rodata_ok s.
Proof. intros [cs Hcs]. by apply (steps_frame _ _ _ rodata_ok_init Hcs). Qed.

Lemma rodata_species_text s :
  rodata_ok s → read_cstr (Dog_species s) s = Some (species_text, s).
Proof.
  intros [_ Hsp ->]. eapply read_cstr_at; [done|].
  apply cstr_of_app. unfold nul_free. by repeat constructor.
Qed.

(** The two statements that fill the name field, run on the block the
    allocator handed out, rewrite its first [sizeof_name] bytes only. *)
Lemma name_copy_ok l g name s str s0 :
  heap s !! l = None →
  length g = sizeof_Dog →
  read_strn (sizeof_name - 1) name s = Some (str, s0) →
  (strncpy (Ptr l off_name) name (sizeof_name - 1) ;;
   store (Ptr l (off_name + (sizeof_name - 1))) x00)
    (set_heap (<[l := g]> (heap s)) s)
  = Some (tt, set_heap (<[l := str ++ replicate (sizeof_name - length str) x00
                                  ++ drop sizeof_name g]> (heap s)) s).
Proof.
  intros Hfresh Hlen Hrd.
  destruct (read_strn_fresh _ _ _ _ _ l g Hfresh Hrd) as [Hrd' Hov].
  apply read_strn_inv in Hrd as (_ & Hstr & _).
  cbv beta iota delta [mbind M_bind bind store ret undef strncpy].
  rewrite Hrd', Hov.
  set (bs := str ++ replicate (sizeof_name - 1 - length str) x00).
  assert (Hbs : length bs = 49).
  { unfold bs. rewrite length_app, length_replicate. unfold sizeof_name in *. lia. }
  assert (Hg : length g = 100) by done.
  rewrite (write_bytes_split l [] g bs); cycle 1.
  { apply lookup_insert_eq. }
  { lia. }
  cbv beta iota. rewrite set_heap_set_heap. cbn [heap set_heap]. rewrite insert_insert_eq.
  rewrite Hbs, app_nil_l.
  change (off_name + (sizeof_name - 1)) with 49. rewrite <- Hbs at 1.
  rewrite (write_bytes_split l bs (drop 49 g) [x00]); cycle 1.
  { apply lookup_insert_eq. }
  { rewrite length_drop, Hg. simpl. lia. }
  rewrite set_heap_set_heap. cbn [heap set_heap]. rewrite insert_insert_eq.
  do 3 f_equal. unfold bs. rewrite drop_drop.
  replace (sizeof_name - length str) with (S (sizeof_name - 1 - length str))
    by (unfold sizeof_name in *; lia).
  rewrite replicate_S_end, <- !app_assoc. reflexivity.
Qed.

Lemma read_cstr_nul_free p s str s' : read_cstr p s = Some (str, s') → nul_free str.
Proof.
  intros (_ & l & o & b & _ & _ & Hstr)%read_cstr_inv.
  by apply cstr_of_inv in Hstr as [? _].
Qed.

Lemma nul_free_take n str : nul_free str → nul_free (take n str).
Proof. apply Forall_take. Qed.

(** ** Construction *)

(** C1: a name longer than [sizeof_name - 1] = 49 characters is stored as
    its first 49 characters followed by the terminator in the last byte of
    the field; the block keeps its size, filling the name field leaves the
    bytes of the secret field as the allocator handed them out, and a name
    of exactly 50 characters loses its last one. *)
Theorem C1_long_name_truncated s l g name str :
  rodata_ok s →
  malloc_ok sizeof_Dog (heap s) (MallocOk l g) →
  read_cstr name s = Some (str, s) →
  sizeof_name - 1 < length str →
  ∃ s',
    Dog_new (MallocOk l g) name s = Some (Ptr l 0, s')
    ∧ name_bytes s' (Ptr l 0) = Some (take (sizeof_name - 1) str ++ [x00])
    ∧ length (take (sizeof_name - 1) str ++ [x00]) = sizeof_name
    ∧ Dog_name s' (Ptr l 0) = Some (take (sizeof_name - 1) str)
    ∧ (∃ b', heap s' !! l = Some b' ∧ length b' = sizeof_Dog)
    ∧ (∃ s1,
         (strncpy (Ptr l off_name) name (sizeof_name - 1) ;;
          store (Ptr l (off_name + (sizeof_name - 1))) x00)
           (set_heap (<[l := g]> (heap s)) s) = Some (tt, s1)
         ∧ secret_bytes s1 (Ptr l 0) = Some (drop off_secret g))
    ∧ (length str = sizeof_name → Dog_name s' (Ptr l 0) = Some (removelast str)).
Proof.
  intros Hro [Hfresh Hlen] Hname Hlong.
  pose proof (read_cstr_nul_free _ _ _ _ Hname) as Hfree.
  pose proof (read_strn_of_cstr (sizeof_name - 1) _ _ _ _ Hname) as Hrd.
  assert (Htake : length (take (sizeof_name - 1) str) = sizeof_name - 1)
    by (rewrite length_take; lia).
  eexists. split; [by eapply Dog_new_strn; [apply Hro|..]|].
  split.
  { unfold name_bytes. cbn [heap set_heap]. rewrite lookup_insert_eq.
    cbn [mbind option_bind]. rewrite image_name_bytes by lia.
    by rewrite Htake. }
  split.
  { rewrite length_app, Htake. reflexivity. }
  split.
  { apply image_Dog_name; [by apply nul_free_take | lia]. }
  split.
  { eexists. cbn [heap set_heap]. rewrite lookup_insert_eq. split; [done|].
    apply Dog_image_length; [unfold sizeof_name in *; lia | done]. }
  split.
  { eexists. split; [by eapply name_copy_ok|].
    unfold secret_bytes. cbn [heap set_heap]. rewrite lookup_insert_eq.
    cbn [mbind option_bind]. f_equal.
    rewrite app_assoc, drop_app_length'; cycle 1.
    { rewrite length_app, length_replicate, Htake. reflexivity. }
    apply take_ge. rewrite length_drop, Hlen. vm_compute. lia. }
  intros H50. rewrite removelast_firstn_len, H50.
  change (Init.Nat.pred sizeof_name) with (sizeof_name - 1).
  apply image_Dog_name; [by apply nul_free_take | lia].
Qed.

Lemma C1_long_name_truncated_witness :
  ∃ s',
    Dog_new (MallocOk new_block stale_bytes) (Ptr caller_block 0) (caller_state fifty)
    = Some (Ptr new_block 0, s')
    ∧ Dog_name s' (Ptr new_block 0) = Some (removelast fifty).
Proof.
  destruct (C1_long_name_truncated (caller_state fifty) new_block stale_bytes
              (Ptr caller_block 0) fifty) as (s' & Hnew & _ & _ & _ & _ & _ & H50).
  - split; reflexivity.
  - split; reflexivity.
  - reflexivity.
  - vm_compute. lia.
  - exists s'. split; [exact Hnew | apply H50; reflexivity].
Defined.

(** C2: a name of at most [sizeof_name - 1] = 49 characters, the empty one
    included, is stored as it is: the name field holds the characters of
    the input followed by terminators, so the text read back from the field
    is the input. *)
Theorem C2_short_name_kept s l g name str :
  rodata_ok s →
  malloc_ok sizeof_Dog (heap s) (MallocOk l g) →
  read_cstr name s = Some (str, s) →
  length str ≤ sizeof_name - 1 →
  ∃ s',
    Dog_new (MallocOk l g) name s = Some (Ptr l 0, s')
    ∧ Dog_name s' (Ptr l 0) = Some str
    ∧ name_bytes s' (Ptr l 0) = Some (str ++ replicate (sizeof_name - length str) x00).
Proof.
  intros Hro [Hfresh Hlen] Hname Hshort.
  pose proof (read_cstr_nul_free _ _ _ _ Hname) as Hfree.
  pose proof (read_strn_of_cstr (sizeof_name - 1) _ _ _ _ Hname) as Hrd.
  rewrite take_ge in Hrd by done.
  eexists. split; [by eapply Dog_new_strn; [apply Hro|..]|].
  split; [by apply image_Dog_name|].
  unfold name_bytes. cbn [heap set_heap]. rewrite lookup_insert_eq.
  cbn [mbind option_bind]. by rewrite image_name_bytes.
Qed.

Lemma C2_short_name_kept_witness :
  ∃ s',
    Dog_new (MallocOk new_block stale_bytes) (Ptr caller_block 0) (caller_state [])
    = Some (Ptr new_block 0, s')
    ∧ Dog_name s' (Ptr new_block 0) = Some [].
Proof.
  destruct (C2_short_name_kept (caller_state []) new_block stale_bytes
              (Ptr caller_block 0) []) as (s' & Hnew & Hname & _).
  - split; reflexivity.
  - split; reflexivity.
  - reflexivity.
  - vm_compute. lia.
  - by exists s'.
Defined.

Lemma Rex_run : steps Rex_state Rex_calls Rex_state_later.
Proof.
  eapply steps_cons.
  { apply step_Dog_speak. vm_compute. reflexivity. }
  eapply steps_cons.
  { eapply step_Dog_new; [split; reflexivity | vm_compute; reflexivity]. }
  eapply steps_cons.
  { apply step_dog_print. vm_compute. reflexivity. }
  apply steps_nil.
Defined.

(** ** The secret *)

(** C3: whatever name [Dog_new] was given, a record it returns has the
    text "dog-secret" in its secret field, and after any further calls of
    the interface the field has the same bytes, still reads "dog-secret",
    and [Dog_getSecret] returns a pointer to that text. *)
Theorem C3_secret_is_dog_secret s r name d s1 cs s2 :
  rodata_ok s →
  malloc_ok sizeof_Dog (heap s) r →
  Dog_new r name s = Some (d, s1) →
  d ≠ NULL →
  steps s1 cs s2 →
  Dog_secret s1 d = Some dog_secret_text
  ∧ secret_bytes s2 d = secret_bytes s1 d
  ∧ Dog_secret s2 d = Some dog_secret_text
  ∧ ∃ p, Dog_getSecret d s2 = Some (p, s2)
         ∧ read_cstr p s2 = Some (dog_secret_text, s2).
Proof.
  intros Hro Hm Hnew Hd Hsteps.
  destruct r as [|l g]; [by injection Hnew as <- _|].
  pose proof (step_frame _ _ _ Hro (step_Dog_new _ _ _ _ _ Hm Hnew)) as (Hro1 & _ & _).
  destruct Hm as [Hfresh Hlen].
  destruct (Dog_new_returns _ _ _ _ _ _ (rodata_dog_secret _ Hro) Hfresh Hlen Hnew)
    as (str & Hfree & Hle & -> & ->).
  destruct (steps_frame _ _ _ Hro1 Hsteps) as (_ & _ & Hheap).
  specialize (Hheap l (Dog_image str g)). cbn [heap set_heap] in Hheap.
  rewrite lookup_insert_eq in Hheap. specialize (Hheap eq_refl).
  assert (Hbytes : secret_bytes s2 (Ptr l 0)
                   = secret_bytes (set_heap (<[l := Dog_image str g]> (heap s)) s) (Ptr l 0)).
  { unfold secret_bytes. cbn [heap set_heap]. by rewrite Hheap, lookup_insert_eq. }
  assert (Hsec : Dog_secret s2 (Ptr l 0) = Some dog_secret_text).
  { unfold Dog_secret. rewrite Hbytes. by apply image_Dog_secret. }
  split; [by apply image_Dog_secret|]. split; [done|]. split; [done|].
  exists (Ptr l (0 + off_secret)). split; [done|].
  by apply Dog_secret_read in Hsec as (l' & o' & [= <- <-] & Hrd).
Qed.

Lemma C3_secret_is_dog_secret_witness :
  Dog_secret Rex_state_later Rex_dog = Some dog_secret_text
  ∧ ∃ p, Dog_getSecret Rex_dog Rex_state_later = Some (p, Rex_state_later)
         ∧ read_cstr p Rex_state_later = Some (dog_secret_text, Rex_state_later).
Proof.
  destruct (C3_secret_is_dog_secret (caller_state Rex) (MallocOk new_block stale_bytes)
              (Ptr caller_block 0) Rex_dog Rex_state Rex_calls Rex_state_later)
    as (_ & _ & Hsec & Hget).
  - split; reflexivity.
  - split; reflexivity.
  - vm_compute. reflexivity.
  - discriminate.
  - exact Rex_run.
  - split; [exact Hsec | exact Hget].
Defined.

(** ** Failure *)

(** C4: given a readable name, [Dog_new] always returns; it returns the
    null pointer exactly when the allocator had no memory, and then the
    state is as it was.  On a record with a readable name the other three
    functions always return, [Dog_getSecret] never with a null pointer. *)
Theorem C4_only_allocation_fails s r name str :
  rodata_ok s →
  malloc_ok sizeof_Dog (heap s) r →
  read_cstr name s = Some (str, s) →
  (∃ d s', Dog_new r name s = Some (d, s')
           ∧ (d = NULL ↔ r = MallocFail)
           ∧ (r = MallocFail → s' = s))
  ∧ ∀ d nm, Dog_name s d = Some nm →
      (∃ s1, Dog_speak d s = Some (tt, s1))
      ∧ (∃ p, Dog_getSecret d s = Some (p, s) ∧ p ≠ NULL)
      ∧ (∃ s3, dog_print d s = Some (tt, s3)).
Proof.
  intros Hro Hm Hname. split.
  - destruct r as [|l g].
    + exists NULL, s. by rewrite Dog_new_MallocFail.
    + destruct Hm as [Hfresh Hlen].
      pose proof (read_strn_of_cstr (sizeof_name - 1) _ _ _ _ Hname) as Hrd.
      eexists _, _. split; [by eapply Dog_new_strn; [apply Hro|..]|].
      split; [|done]. by split.
  - intros d nm Hnm. split; [|split].
    + eexists. by apply Dog_speak_emits.
    + apply Dog_name_read in Hnm as (l & o & -> & _).
      by exists (Ptr l (o + off_secret)).
    + eexists. eapply dog_print_emits; [done|]. by apply rodata_species_text.
Qed.

Lemma C4_only_allocation_fails_witness :
  Dog_new MallocFail (Ptr caller_block 0) (caller_state Rex)
  = Some (NULL, caller_state Rex).
Proof.
  destruct (C4_only_allocation_fails (caller_state Rex) MallocFail
              (Ptr caller_block 0) Rex) as [(d & s' & Hnew & Hnull & Hsame) _].
  - split; reflexivity.
  - exact I.
  - reflexivity.
  - rewrite Hnew. f_equal. f_equal; [by apply Hnull | by apply Hsame].
Defined.

(** ** The two output lines *)

(** C5: on a record whose name field holds the text [nm], [Dog_speak]
    returns (it has type [unit]) and appends to standard output the bytes
    of [nm], then " says: woof!" and a line feed; memory and [Dog_species]
    stay as they are. *)
Theorem C5_speak_line s d nm :
  Dog_name s d = Some nm →
  ∃ s',
    Dog_speak d s = Some (tt, s')
    ∧ stdout s' = stdout s ++ nm ++ list_byte_of_string " says: woof!" ++ [LF]
    ∧ heap s' = heap s
    ∧ Dog_species s' = Dog_species s.
Proof.
  intros Hnm. eexists. split; [by apply Dog_speak_emits|]. done.
Qed.

Lemma C5_speak_line_witness :
  ∃ s',
    Dog_speak Rex_dog Rex_state = Some (tt, s')
    ∧ stdout s' = list_byte_of_string "Rex says: woof!" ++ [LF].
Proof.
  destruct (C5_speak_line Rex_state Rex_dog Rex) as (s' & Hspeak & Hout & _).
  - vm_compute. reflexivity.
  - exists s'. split; [exact Hspeak | exact Hout].
Defined.

(** C6: where the literals are intact, [dog_print] on a record whose name
    field holds [nm] appends "[Dog] ", [nm],
    " (species=Canis familiaris)" and a line feed to standard output and
    changes nothing else.  The species text is the one read through the
    global [Dog_species]: in any state, whatever text [sp] that pointer
    leads to is the one printed. *)
Theorem C6_print_line s d nm :
  rodata_ok s →
  Dog_name s d = Some nm →
  (∃ s',
     dog_print d s = Some (tt, s')
     ∧ stdout s' = stdout s ++ list_byte_of_string "[Dog] " ++ nm
                     ++ list_byte_of_string " (species=Canis familiaris)" ++ [LF]
     ∧ heap s' = heap s
     ∧ Dog_species s' = Dog_species s)
  ∧ ∀ t sp,
      Dog_name t d = Some nm →
      read_cstr (Dog_species t) t = Some (sp, t) →
      dog_print d t
      = Some (tt, set_stdout (stdout t ++ list_byte_of_string "[Dog] " ++ nm
                                ++ list_byte_of_string " (species=" ++ sp
                                ++ list_byte_of_string ")" ++ [LF]) t).
Proof.
  intros Hro Hnm. split.
  - eexists. split.
    + eapply dog_print_emits; [done|]. by apply rodata_species_text.
    + done.
  - intros t sp Ht Hsp. by eapply dog_print_emits.
Qed.

Lemma C6_print_line_witness :
  ∃ s',
    dog_print Rex_dog Rex_state = Some (tt, s')
    ∧ stdout s' = list_byte_of_string "[Dog] Rex (species=Canis familiaris)" ++ [LF].
Proof.
  destruct (C6_print_line Rex_state Rex_dog Rex) as [(s' & Hprint & Hout & _) _].
  - split; reflexivity.
  - vm_compute. reflexivity.
  - exists s'. split; [exact Hprint | exact Hout].
Defined.

(** ** The species label *)

(** C7: at program start [Dog_species] points to the literal
    "Canis familiaris"; after any run of the interface from a state where
    that holds, the pointer is the same, the literal's block is the same,
    and the text read through the pointer is "Canis familiaris".  The text
    is held in no record: overwriting any other block, a record's
    included, leaves it as it is. *)
Theorem C7_species_constant s cs s' :
  rodata_ok s →
  steps s cs s' →
  rodata_ok init_state
  ∧ Dog_species s' = Ptr lit_species 0
  ∧ heap s' !! lit_species = Some (species_text ++ [x00])
  ∧ read_cstr (Dog_species s') s' = Some (species_text, s')
  ∧ ∀ l b, l ≠ lit_species →
      read_cstr (Dog_species s') (set_heap (<[l := b]> (heap s')) s')
      = Some (species_text, set_heap (<[l := b]> (heap s')) s').
Proof.
  intros Hro Hsteps.
  destruct (steps_frame _ _ _ Hro Hsteps) as (Hro' & _ & _).
  split; [apply rodata_ok_init|].
  split; [apply Hro'|]. split; [apply Hro'|].
  split; [by apply rodata_species_text|].
  intros l b Hl. destruct Hro' as [_ Hsp ->].
  eapply read_cstr_at.
  - cbn [heap set_heap]. by rewrite lookup_insert_ne.
  - apply cstr_of_app. unfold nul_free. by repeat constructor.
Qed.

Lemma C7_species_constant_witness :
  Dog_species Rex_state_later = Ptr lit_species 0
  ∧ read_cstr (Dog_species Rex_state_later) Rex_state_later
    = Some (species_text, Rex_state_later).
Proof.
  destruct (C7_species_constant Rex_state Rex_calls Rex_state_later)
    as (_ & Hptr & _ & Hread & _).
  - split; reflexivity.
  - exact Rex_run.
  - split; [exact Hptr | exact Hread].
Defined.

(** ** The copy of the secret *)

(** [strcpy] of the literal into the secret field of a block of the size
    of a record: defined, and it rewrites the bytes from [off_secret] up to
    the terminator it writes, no others. *)
Lemma strcpy_secret_ok l b s :
  heap s !! lit_dog_secret = Some (dog_secret_text ++ [x00]) →
  heap s !! l = Some b →
  l ≠ lit_dog_secret →
  length b = sizeof_Dog →
  strcpy (Ptr l off_secret) (Ptr lit_dog_secret 0) s
  = Some (Ptr l off_secret,
          set_heap (<[l := take off_secret b ++ (dog_secret_text ++ [x00])
                          ++ drop (off_secret + S (length dog_secret_text)) b]> (heap s)) s).
Proof.
  intros Hlit Hb Hne Hlen.
  unfold strcpy, mbind, M_bind, bind, ret.
  rewrite (read_cstr_at lit_dog_secret 0 (dog_secret_text ++ [x00]) dog_secret_text)
    by done.
  replace (overlap _ _ _ _) with false; cycle 1.
  { unfold overlap. by rewrite (bool_decide_eq_false_2 _ Hne). }
  rewrite (write_bytes_at _ _ _ _ _ Hb); [done|].
  rewrite Hlen. vm_compute. lia.
Qed.

(** C8: the literal with its terminator takes 11 of the 50 bytes of the
    secret field.  [Dog_new], whenever it got memory and could read the
    name, has copied it there: the field holds "dog-secret", a terminator,
    and then the bytes the allocator handed out; the block has kept its
    size and the name field is what the name copy left.  The copy does not
    depend on what the block held: on any block of the size of a record it
    is defined and rewrites bytes 50 to 60 only. *)
Theorem C8_secret_copy_fits s l g name str :
  rodata_ok s →
  malloc_ok sizeof_Dog (heap s) (MallocOk l g) →
  read_strn (sizeof_name - 1) name s = Some (str, s) →
  S (length dog_secret_text) ≤ sizeof_secret
  ∧ (∃ s',
       Dog_new (MallocOk l g) name s = Some (Ptr l 0, s')
       ∧ secret_bytes s' (Ptr l 0)
         = Some (dog_secret_text ++ [x00]
                   ++ drop (off_secret + S (length dog_secret_text)) g)
       ∧ Dog_secret s' (Ptr l 0) = Some dog_secret_text
       ∧ name_bytes s' (Ptr l 0) = Some (str ++ replicate (sizeof_name - length str) x00)
       ∧ ∃ b', heap s' !! l = Some b' ∧ length b' = sizeof_Dog)
  ∧ ∀ b, length b = sizeof_Dog →
      ∃ b',
        strcpy (Ptr l off_secret) (Ptr lit_dog_secret 0) (set_heap (<[l := b]> (heap s)) s)
        = Some (Ptr l off_secret, set_heap (<[l := b']> (heap s)) s)
        ∧ length b' = sizeof_Dog
        ∧ take off_secret b' = take off_secret b
        ∧ drop (off_secret + S (length dog_secret_text)) b'
          = drop (off_secret + S (length dog_secret_text)) b
        ∧ cstr_of (take sizeof_secret (drop off_secret b')) = Some dog_secret_text.
Proof.
  intros Hro [Hfresh Hlen] Hrd.
  assert (Hne : l ≠ lit_dog_secret).
  { intros ->. pose proof (rodata_dog_secret _ Hro). congruence. }
  pose proof Hrd as (_ & Hle & _)%read_strn_inv.
  split; [vm_compute; lia|]. split.
  - eexists. split; [by eapply Dog_new_strn; [apply Hro|..]|].
    split.
    { unfold secret_bytes. cbn [heap set_heap]. rewrite lookup_insert_eq.
      cbn [mbind option_bind]. by rewrite image_secret_bytes. }
    split; [by apply image_Dog_secret|].
    split.
    { unfold name_bytes. cbn [heap set_heap]. rewrite lookup_insert_eq.
      cbn [mbind option_bind]. by rewrite image_name_bytes. }
    eexists. cbn [heap set_heap]. rewrite lookup_insert_eq. split; [done|].
    apply Dog_image_length; [unfold sizeof_name in *; lia | done].
  - intros b Hb. eexists. split.
    { rewrite (strcpy_secret_ok l b); cbn [heap set_heap].
      - by rewrite insert_insert_eq.
      - rewrite lookup_insert_ne by done. apply Hro.
      - apply lookup_insert_eq.
      - done.
      - done. }
    assert (Htk : length (take off_secret b) = off_secret).
    { rewrite length_take, Hb. vm_compute. lia. }
    split.
    { rewrite !length_app, Htk, length_drop, Hb. vm_compute. lia. }
    split.
    { by rewrite take_app_length'. }
    split.
    { rewrite <- Htk at 1.
      rewrite drop_app_add. by rewrite (drop_app_length' _ _ (S _)) by (by rewrite length_app). }
    rewrite drop_app_length' by done.
    rewrite take_ge; cycle 1.
    { rewrite !length_app, length_drop, Hb. vm_compute. lia. }
    rewrite <- app_assoc. apply cstr_of_app. unfold nul_free. by repeat constructor.
Qed.

Lemma C8_secret_copy_fits_witness :
  ∃ s',
    Dog_new (MallocOk new_block stale_bytes) (Ptr caller_block 0) (caller_state fifty)
    = Some (Ptr new_block 0, s')
    ∧ secret_bytes s' (Ptr new_block 0)
      = Some (dog_secret_text ++ [x00] ++ replicate 39 xff).
Proof.
  destruct (C8_secret_copy_fits (caller_state fifty) new_block stale_bytes
              (Ptr caller_block 0) (take (sizeof_name - 1) fifty))
    as (_ & (s' & Hnew & Hbytes & _) & _).
  - split; reflexivity.
  - split; reflexivity.
  - vm_compute. reflexivity.
  - exists s'. split; [exact Hnew | exact Hbytes].
Defined.

(** ** No mutation after construction *)

(** C9: on a record with a readable name, where the literals are intact,
    [Dog_speak], [Dog_getSecret] and [dog_print] return and leave memory as
    it is: the name bytes and the secret bytes of this record, and of any
    other, are the same before and after. *)
Theorem C9_readers_do_not_mutate s d nm :
  rodata_ok s →
  Dog_name s d = Some nm →
  ∃ s1 p s2 s3,
    Dog_speak d s = Some (tt, s1)
    ∧ Dog_getSecret d s = Some (p, s2)
    ∧ dog_print d s = Some (tt, s3)
    ∧ ∀ s', s' = s1 ∨ s' = s2 ∨ s' = s3 →
        heap s' = heap s
        ∧ ∀ d', name_bytes s' d' = name_bytes s d'
                ∧ secret_bytes s' d' = secret_bytes s d'.
Proof.
  intros Hro Hnm.
  pose proof (Dog_speak_emits _ _ _ Hnm) as Hspeak.
  pose proof (dog_print_emits _ _ _ _ _ Hnm (rodata_species_text _ Hro)) as Hprint.
  pose proof Hnm as (l & o & -> & _)%Dog_name_read.
  eexists _, _, _, _. split; [exact Hspeak|]. split; [reflexivity|].
  split; [exact Hprint|].
  by intros s' [->|[->| ->]].
Qed.

Lemma C9_readers_do_not_mutate_witness :
  ∃ s1 s3,
    Dog_speak Rex_dog Rex_state = Some (tt, s1)
    ∧ dog_print Rex_dog Rex_state = Some (tt, s3)
    ∧ name_bytes s1 Rex_dog = name_bytes Rex_state Rex_dog
    ∧ secret_bytes s3 Rex_dog = secret_bytes Rex_state Rex_dog.
Proof.
  destruct (C9_readers_do_not_mutate Rex_state Rex_dog Rex)
    as (s1 & p & s2 & s3 & Hspeak & _ & Hprint & Hsame).
  - split; reflexivity.
  - vm_compute. reflexivity.
  - exists s1, s3. split; [exact Hspeak|]. split; [exact Hprint|]. split.
    + apply (Hsame s1). left. reflexivity.
    + apply (Hsame s3). right. right. reflexivity.
Defined.

(** ** Only the first 49 characters matter *)

(** C10: two names that agree on their first [sizeof_name - 1] = 49
    characters give the same call of [Dog_new]: the same pointer and the
    same state, hence the same fields, and whatever the program does next
    gives the same result and the same output. *)
Theorem C10_only_first_49_matter s r name1 name2 str1 str2 :
  rodata_ok s →
  malloc_ok sizeof_Dog (heap s) r →
  read_cstr name1 s = Some (str1, s) →
  read_cstr name2 s = Some (str2, s) →
  take (sizeof_name - 1) str1 = take (sizeof_name - 1) str2 →
  Dog_new r name1 s = Dog_new r name2 s
  ∧ (∃ d s',
       Dog_new r name1 s = Some (d, s')
       ∧ (d ≠ NULL →
          Dog_name s' d = Some (take (sizeof_name - 1) str1)
          ∧ Dog_secret s' d = Some dog_secret_text))
  ∧ ∀ A (rest : ptr → M A),
      (Dog_new r name1 ≫= rest) s = (Dog_new r name2 ≫= rest) s.
Proof.
  intros Hro Hm Hname1 Hname2 Hagree.
  assert (Heq : Dog_new r name1 s = Dog_new r name2 s).
  { destruct r as [|l g]; [done|]. destruct Hm as [Hfresh Hlen].
    pose proof (read_strn_of_cstr (sizeof_name - 1) _ _ _ _ Hname1) as Hrd1.
    pose proof (read_strn_of_cstr (sizeof_name - 1) _ _ _ _ Hname2) as Hrd2.
    rewrite (Dog_new_strn _ _ _ _ _ _ (rodata_dog_secret _ Hro) Hfresh Hlen Hrd1).
    rewrite (Dog_new_strn _ _ _ _ _ _ (rodata_dog_secret _ Hro) Hfresh Hlen Hrd2).
    by rewrite Hagree. }
  split; [done|]. split.
  - destruct r as [|l g].
    + by exists NULL, s.
    + destruct Hm as [Hfresh Hlen].
      pose proof (read_strn_of_cstr (sizeof_name - 1) _ _ _ _ Hname1) as Hrd1.
      pose proof Hrd1 as (_ & Hle & _)%read_strn_inv.
      eexists _, _. split; [by eapply Dog_new_strn; [apply Hro|..]|].
      intros _. split.
      * apply image_Dog_name; [|done].
        apply nul_free_take. by eapply read_cstr_nul_free.
      * by apply image_Dog_secret.
  - intros A rest. unfold mbind, M_bind, bind. by rewrite Heq.
Qed.

Lemma C10_only_first_49_matter_witness :
  Dog_new (MallocOk new_block stale_bytes) (Ptr caller_block 0) two_names_state
  = Dog_new (MallocOk new_block stale_bytes) (Ptr caller_block 51) two_names_state
  ∧ (Dog_new (MallocOk new_block stale_bytes) (Ptr caller_block 0) ≫= Dog_speak) two_names_state
    = (Dog_new (MallocOk new_block stale_bytes) (Ptr caller_block 51) ≫= Dog_speak) two_names_state.
Proof.
  destruct (C10_only_first_49_matter two_names_state (MallocOk new_block stale_bytes)
              (Ptr caller_block 0) (Ptr caller_block 51) fifty fifty_two)
    as (Hsame & _ & Hnext).
  - split; reflexivity.
  - split; reflexivity.
  - vm_compute. reflexivity.
  - vm_compute. reflexivity.
  - vm_compute. reflexivity.
  - split; [exact Hsame | exact (Hnext unit Dog_speak)].
Defined.

(** ** The scenarios, run *)

Example Rex_constructed :
  Dog_name Rex_state Rex_dog = Some Rex
  ∧ Dog_secret Rex_state Rex_dog = Some dog_secret_text.
Proof. split; vm_compute; reflexivity. Qed.

Example Rex_output :
  stdout (state_after (Dog_speak Rex_dog ;; dog_print Rex_dog) Rex_state)
  = list_byte_of_string "Rex says: woof!" ++ [LF]
    ++ list_byte_of_string "[Dog] Rex (species=Canis familiaris)" ++ [LF].
Proof. vm_compute. reflexivity. Qed.

Example empty_name_speaks :
  stdout (state_after
            (d ← Dog_new (MallocOk new_block stale_bytes) (Ptr caller_block 0);
             Dog_speak d)
            (caller_state []))
  = list_byte_of_string " says: woof!" ++ [LF].
Proof. vm_compute. reflexivity. Qed.

Example fifty_and_fifty_two :
  length fifty = sizeof_name
  ∧ length fifty_two = 52
  ∧ take (sizeof_name - 1) fifty = take (sizeof_name - 1) fifty_two
  ∧ fifty !! 49 ≠ fifty_two !! 49.
Proof. repeat split; vm_compute; (reflexivity || discriminate). Qed.

Example fifty_loses_last :
  Dog_name (state_after (Dog_new (MallocOk new_block stale_bytes) (Ptr caller_block 0))
                        (caller_state fifty))
           Rex_dog
  = Some (take 49 fifty).
Proof. vm_compute. reflexivity. Qed.

(** * Further properties of the four functions *)

Lemma strn_of_exact pre rest :
  nul_free pre → strn_of (length pre) (pre ++ rest) = Some pre.
Proof.
  induction 1 as [|c pre Hc _ IH]; simpl; [done|].
  by rewrite Hc, IH.
Qed.

Lemma cstr_of_length bs str : cstr_of bs = Some str → length str < length bs.
Proof.
  intros [_ [rest ->]]%cstr_of_inv. rewrite length_app. simpl. lia.
Qed.

Lemma rodata_ok_set_stdout o s : rodata_ok s → rodata_ok (set_stdout o s).
Proof. by intros [H1 H2 H3]. Qed.

(** A read through a pointer that is not into the block being handed out
    is the same before and after the allocation. *)
Lemma read_strn_alloc n p l g s :
  (∀ o, p ≠ Ptr l o) →
  is_Some (read_strn n p (set_heap (<[l := g]> (heap s)) s)) ↔ is_Some (read_strn n p s).
Proof.
  intros Hp. destruct p as [|lp op]; [done|].
  assert (l ≠ lp) by (intros ->; by eapply Hp).
  unfold read_strn. cbn [heap set_heap]. rewrite lookup_insert_ne by done.
  destruct (heap s !! lp) as [b|]; [|done].
  destruct (strn_of n (drop op b)); [|done].
  split; intros _; eauto.
Qed.

(** ** When construction is defined *)

(** X1: with memory available and a name that does not point into the new
    block, [Dog_new] is defined exactly when [strncpy] can read the name:
    a terminator or 49 characters are readable at it.  A null name is
    undefined; when the allocator has no memory the name is not looked
    at. *)
Theorem X1_Dog_new_defined_iff s l g name :
  rodata_ok s →
  malloc_ok sizeof_Dog (heap s) (MallocOk l g) →
  (∀ o, name ≠ Ptr l o) →
  (is_Some (Dog_new (MallocOk l g) name s)
   ↔ is_Some (read_strn (sizeof_name - 1) name s))
  ∧ Dog_new (MallocOk l g) NULL s = None
  ∧ Dog_new MallocFail NULL s = Some (NULL, s).
Proof.
  intros Hro [Hfresh Hlen] Hname.
  split; [|split; [|done]].
  - rewrite <- (read_strn_alloc _ _ l g s Hname).
    rewrite (Dog_new_MallocOk _ _ _ _ (rodata_dog_secret _ Hro) Hfresh Hlen).
    destruct (read_strn _ _ _) as [[str s1]|]; [|done].
    replace (overlap _ _ _ _) with false; [split; intros _; eauto|].
    destruct name as [|ln on]; [done|].
    unfold overlap. rewrite bool_decide_eq_false_2; [done|].
    intros ->. by eapply Hname.
  - by rewrite (Dog_new_MallocOk _ _ _ _ (rodata_dog_secret _ Hro) Hfresh Hlen).
Qed.

Lemma X1_Dog_new_defined_iff_witness :
  is_Some (Dog_new (MallocOk new_block stale_bytes) (Ptr caller_block 0) (caller_state Rex))
  ∧ ¬ is_Some (Dog_new (MallocOk new_block stale_bytes) (Ptr caller_block 5) (caller_state Rex)).
Proof.
  split.
  - apply (X1_Dog_new_defined_iff (caller_state Rex) new_block stale_bytes (Ptr caller_block 0)).
    + split; reflexivity.
    + split; reflexivity.
    + discriminate.
    + vm_compute. eauto.
  - intros H.
    apply (X1_Dog_new_defined_iff (caller_state Rex) new_block stale_bytes (Ptr caller_block 5))
      in H.
    + vm_compute in H. destruct H as [x H]. discriminate H.
    + split; reflexivity.
    + split; reflexivity.
    + discriminate.
Defined.

(** X2: [Dog_new] reads no more than 49 bytes of its argument: a buffer of
    49 characters without any terminator, whatever follows it or nothing,
    is accepted, and the record's name is those 49 characters. *)
Theorem X2_unterminated_buffer s l g ln o b pre rest :
  rodata_ok s →
  malloc_ok sizeof_Dog (heap s) (MallocOk l g) →
  heap s !! ln = Some b →
  drop o b = pre ++ rest →
  length pre = sizeof_name - 1 →
  nul_free pre →
  ∃ s',
    Dog_new (MallocOk l g) (Ptr ln o) s = Some (Ptr l 0, s')
    ∧ Dog_name s' (Ptr l 0) = Some pre
    ∧ name_bytes s' (Ptr l 0) = Some (pre ++ [x00]).
Proof.
  intros Hro [Hfresh Hlen] Hb Hdrop Hpre Hfree.
  assert (Hrd : read_strn (sizeof_name - 1) (Ptr ln o) s = Some (pre, s)).
  { unfold read_strn. rewrite Hb, Hdrop, <- Hpre. by rewrite strn_of_exact. }
  eexists. split; [by eapply Dog_new_strn; [apply Hro|..]|].
  split; [apply image_Dog_name; [done | lia]|].
  unfold name_bytes. cbn [heap set_heap]. rewrite lookup_insert_eq.
  cbn [mbind option_bind]. rewrite image_name_bytes by lia.
  by rewrite Hpre.
Qed.

Lemma X2_unterminated_buffer_witness :
  ∃ s',
    Dog_new (MallocOk new_block stale_bytes) (Ptr caller_block 0) unterminated_state
    = Some (Ptr new_block 0, s')
    ∧ Dog_name s' (Ptr new_block 0) = Some (take (sizeof_name - 1) fifty).
Proof.
  destruct (X2_unterminated_buffer unterminated_state new_block stale_bytes
              caller_block 0 (take (sizeof_name - 1) fifty)
              (take (sizeof_name - 1) fifty) [])
    as (s' & Hnew & Hname & _).
  - split; reflexivity.
  - split; reflexivity.
  - reflexivity.
  - reflexivity.
  - reflexivity.
  - unfold nul_free. vm_compute. repeat constructor.
  - exists s'. split; [exact Hnew | exact Hname].
Defined.

(** ** What construction hands to the readers *)

(** X3: whatever name pointer it was given, a record [Dog_new] returns is
    fit for the readers: the last byte of its name field is the terminator,
    its name has at most 49 characters and no terminator inside, the
    literals are still intact, and [Dog_speak] and [dog_print] are defined
    on it. *)
Theorem X3_constructed_record_is_readable s r name d s' :
  rodata_ok s →
  malloc_ok sizeof_Dog (heap s) r →
  Dog_new r name s = Some (d, s') →
  d ≠ NULL →
  rodata_ok s'
  ∧ (∃ bs, name_bytes s' d = Some bs
           ∧ length bs = sizeof_name
           ∧ bs !! (sizeof_name - 1) = Some x00)
  ∧ ∃ nm, Dog_name s' d = Some nm
          ∧ length nm ≤ sizeof_name - 1
          ∧ nul_free nm
          ∧ (∃ s1, Dog_speak d s' = Some (tt, s1))
          ∧ (∃ s2, dog_print d s' = Some (tt, s2)).
Proof.
  intros Hro Hm Hnew Hd.
  destruct r as [|l g]; [by injection Hnew as <- _|].
  pose proof (step_frame _ _ _ Hro (step_Dog_new _ _ _ _ _ Hm Hnew)) as (Hro' & _ & _).
  destruct Hm as [Hfresh Hlen].
  destruct (Dog_new_returns _ _ _ _ _ _ (rodata_dog_secret _ Hro) Hfresh Hlen Hnew)
    as (str & Hfree & Hle & -> & ->).
  split; [done|]. split.
  - eexists. split.
    { unfold name_bytes. cbn [heap set_heap]. rewrite lookup_insert_eq.
      cbn [mbind option_bind]. by rewrite image_name_bytes. }
    split.
    { rewrite length_app, length_replicate. unfold sizeof_name in *. lia. }
    rewrite lookup_app_r by done. apply lookup_replicate_2.
    unfold sizeof_name in *. lia.
  - pose proof (image_Dog_name l str g (heap s) s Hfree Hle) as Hnm.
    exists str. split; [done|]. split; [done|]. split; [done|]. split.
    + eexists. by apply Dog_speak_emits.
    + eexists. eapply dog_print_emits; [done|]. by apply rodata_species_text.
Qed.

Lemma X3_constructed_record_is_readable_witness :
  ∃ nm, Dog_name Rex_state Rex_dog = Some nm ∧ length nm ≤ sizeof_name - 1.
Proof.
  destruct (X3_constructed_record_is_readable (caller_state Rex)
              (MallocOk new_block stale_bytes) (Ptr caller_block 0) Rex_dog Rex_state)
    as (_ & _ & nm & Hnm & Hle & _).
  - split; reflexivity.
  - split; reflexivity.
  - vm_compute. reflexivity.
  - discriminate.
  - exists nm. split; [exact Hnm | exact Hle].
Defined.

(** X4: constructing a record from a C string, then speaking, then
    printing, writes the two lines with the name cut to its first 49
    characters, and nothing else. *)
Theorem X4_construct_speak_print s l g name str :
  rodata_ok s →
  malloc_ok sizeof_Dog (heap s) (MallocOk l g) →
  read_cstr name s = Some (str, s) →
  ∃ s',
    (d ← Dog_new (MallocOk l g) name; Dog_speak d ;; dog_print d) s = Some (tt, s')
    ∧ stdout s'
      = stdout s
          ++ (take (sizeof_name - 1) str ++ list_byte_of_string " says: woof!" ++ [LF])
          ++ (list_byte_of_string "[Dog] " ++ take (sizeof_name - 1) str
                ++ list_byte_of_string " (species=Canis familiaris)" ++ [LF]).
Proof.
  intros Hro [Hfresh Hlen] Hname.
  pose proof (read_cstr_nul_free _ _ _ _ Hname) as Hfree.
  pose proof (read_strn_of_cstr (sizeof_name - 1) _ _ _ _ Hname) as Hrd.
  pose proof Hrd as (_ & Hle & _)%read_strn_inv.
  pose proof (Dog_new_strn _ _ _ _ _ _ (rodata_dog_secret _ Hro) Hfresh Hlen Hrd) as Hnew.
  set (s1 := set_heap (<[l := Dog_image (take (sizeof_name - 1) str) g]> (heap s)) s) in *.
  assert (Hro1 : rodata_ok s1).
  { assert (Hm : malloc_ok sizeof_Dog (heap s) (MallocOk l g)) by done.
    by apply (step_frame _ _ _ Hro (step_Dog_new _ _ _ _ _ Hm Hnew)). }
  assert (Hnm : Dog_name s1 (Ptr l 0) = Some (take (sizeof_name - 1) str)).
  { apply image_Dog_name; [by apply nul_free_take | done]. }
  pose proof (Dog_speak_emits _ _ _ Hnm) as Hspeak.
  set (s2 := set_stdout _ s1) in Hspeak.
  assert (Hprint := dog_print_emits s2 (Ptr l 0) _ _ _ Hnm
                      (rodata_species_text _ (rodata_ok_set_stdout _ _ Hro1))).
  eexists. split.
  - unfold mbind, M_bind, bind. rewrite Hnew, Hspeak. exact Hprint.
  - cbn [stdout set_stdout s2 s1 set_heap]. by rewrite <- !app_assoc.
Qed.

Lemma X4_construct_speak_print_witness :
  ∃ s',
    (d ← Dog_new (MallocOk new_block stale_bytes) (Ptr caller_block 0);
     Dog_speak d ;; dog_print d) (caller_state fifty) = Some (tt, s')
    ∧ stdout s'
      = (take 49 fifty ++ list_byte_of_string " says: woof!" ++ [LF])
          ++ (list_byte_of_string "[Dog] " ++ take 49 fifty
                ++ list_byte_of_string " (species=Canis familiaris)" ++ [LF]).
Proof.
  destruct (X4_construct_speak_print (caller_state fifty) new_block stale_bytes
              (Ptr caller_block 0) fifty) as (s' & Hrun & Hout).
  - split; reflexivity.
  - split; reflexivity.
  - reflexivity.
  - exists s'. split; [exact Hrun | exact Hout].
Defined.

(** ** Records as names of other records *)

(** X5: a record constructed from the name field of an existing record has
    the same name, with no further loss, and the existing record keeps
    its own. *)
Theorem X5_copy_of_name s d nm l g :
  rodata_ok s →
  malloc_ok sizeof_Dog (heap s) (MallocOk l g) →
  Dog_name s d = Some nm →
  ∃ s',
    (d_name ← field d (off_base + off_name); Dog_new (MallocOk l g) d_name) s
    = Some (Ptr l 0, s')
    ∧ Dog_name s' (Ptr l 0) = Some nm
    ∧ Dog_name s' d = Some nm
    ∧ name_bytes s' d = name_bytes s d.
Proof.
  intros Hro [Hfresh Hlen] Hnm.
  assert (Hle : length nm ≤ sizeof_name - 1).
  { unfold Dog_name, name_bytes in Hnm. destruct d as [|ld od]; [done|].
    destruct (heap s !! ld) as [b|]; [|done]. cbn [mbind option_bind] in Hnm.
    apply cstr_of_length in Hnm. rewrite length_take in Hnm.
    unfold sizeof_name in *. lia. }
  pose proof Hnm as (ld & od & -> & Hread)%Dog_name_read.
  pose proof (read_cstr_nul_free _ _ _ _ Hread) as Hfree.
  pose proof (read_strn_of_cstr (sizeof_name - 1) _ _ _ _ Hread) as Hrd.
  rewrite take_ge in Hrd by done.
  assert (Hne : l ≠ ld).
  { intros ->. unfold Dog_name, name_bytes in Hnm. by rewrite Hfresh in Hnm. }
  assert (Hkeep : name_bytes (set_heap (<[l := Dog_image nm g]> (heap s)) s) (Ptr ld od)
                  = name_bytes s (Ptr ld od)).
  { unfold name_bytes. cbn [heap set_heap]. by rewrite lookup_insert_ne. }
  eexists. split.
  { cbv beta iota delta [field mbind M_bind bind ret].
    by eapply Dog_new_strn; [apply Hro|..]. }
  split; [by apply image_Dog_name|]. split; [|done].
  unfold Dog_name. by rewrite Hkeep.
Qed.

Lemma X5_copy_of_name_witness :
  ∃ s',
    (d_name ← field Rex_dog (off_base + off_name);
     Dog_new (MallocOk other_block stale_bytes) d_name) Rex_state
    = Some (Ptr other_block 0, s')
    ∧ Dog_name s' (Ptr other_block 0) = Some Rex.
Proof.
  destruct (X5_copy_of_name Rex_state Rex_dog Rex other_block stale_bytes)
    as (s' & Hnew & Hname & _).
  - split; reflexivity.
  - split; reflexivity.
  - vm_compute. reflexivity.
  - exists s'. split; [exact Hnew | exact Hname].
Defined.

(** X6: the pointer [Dog_getSecret] returns is a C string that [Dog_new]
    accepts as a name: the new record is named after the old one's secret,
    and the old record's secret is as it was. *)
Theorem X6_secret_as_name s d txt l g :
  rodata_ok s →
  malloc_ok sizeof_Dog (heap s) (MallocOk l g) →
  Dog_secret s d = Some txt →
  ∃ s',
    (p ← Dog_getSecret d; Dog_new (MallocOk l g) p) s = Some (Ptr l 0, s')
    ∧ Dog_name s' (Ptr l 0) = Some txt
    ∧ Dog_secret s' (Ptr l 0) = Some dog_secret_text
    ∧ Dog_secret s' d = Some txt.
Proof.
  intros Hro [Hfresh Hlen] Hsec.
  assert (Hle : length txt ≤ sizeof_name - 1).
  { unfold Dog_secret, secret_bytes in Hsec. destruct d as [|ld od]; [done|].
    destruct (heap s !! ld) as [b|]; [|done]. cbn [mbind option_bind] in Hsec.
    apply cstr_of_length in Hsec. rewrite length_take in Hsec.
    unfold sizeof_name, sizeof_secret in *. lia. }
  pose proof Hsec as (ld & od & -> & Hread)%Dog_secret_read.
  pose proof (read_cstr_nul_free _ _ _ _ Hread) as Hfree.
  pose proof (read_strn_of_cstr (sizeof_name - 1) _ _ _ _ Hread) as Hrd.
  rewrite take_ge in Hrd by done.
  assert (Hne : l ≠ ld).
  { intros ->. unfold Dog_secret, secret_bytes in Hsec. by rewrite Hfresh in Hsec. }
  assert (Hkeep : secret_bytes (set_heap (<[l := Dog_image txt g]> (heap s)) s) (Ptr ld od)
                  = secret_bytes s (Ptr ld od)).
  { unfold secret_bytes. cbn [heap set_heap]. by rewrite lookup_insert_ne. }
  eexists. split.
  { cbv beta iota delta [Dog_getSecret field mbind M_bind bind ret].
    by eapply Dog_new_strn; [apply Hro|..]. }
  split; [by apply image_Dog_name|]. split; [by apply image_Dog_secret|].
  unfold Dog_secret. by rewrite Hkeep.
Qed.

Lemma X6_secret_as_name_witness :
  ∃ s',
    (p ← Dog_getSecret Rex_dog; Dog_new (MallocOk other_block stale_bytes) p) Rex_state
    = Some (Ptr other_block 0, s')
    ∧ Dog_name s' (Ptr other_block 0) = Some dog_secret_text.
Proof.
  destruct (X6_secret_as_name Rex_state Rex_dog dog_secret_text other_block stale_bytes)
    as (s' & Hnew & Hname & _).
  - split; reflexivity.
  - split; reflexivity.
  - vm_compute. reflexivity.
  - exists s'. split; [exact Hnew | exact Hname].
Defined.

(** ** Runs: output, records, blocks *)

Lemma step_stdout s c s' :
  rodata_ok s → step s c s' →
  ∃ out, stdout s' = stdout s ++ out ∧ (silent c = true → out = []).
Proof.
  intros Hro Hstep.
  destruct Hstep as [r name s d s' Hm Hnew|d s s' H|d s p s' H|d s s' H].
  - exists []. rewrite app_nil_r. split; [|done].
    destruct r as [|l g]; [by injection Hnew as _ <-|].
    destruct Hm as [Hfresh Hlen].
    by destruct (Dog_new_returns _ _ _ _ _ _ (rodata_dog_secret _ Hro) Hfresh Hlen Hnew)
      as (str & _ & _ & _ & ->).
  - apply Dog_speak_state in H as [out ->]. by exists out.
  - apply Dog_getSecret_state in H as [-> _]. exists []. by rewrite app_nil_r.
  - apply dog_print_state in H as [out ->]. by exists out.
Qed.

(** X7: standard output only grows along a run of the interface: what was
    written stays, in place.  [Dog_new] and [Dog_getSecret] write nothing:
    a run of those alone leaves standard output as it was. *)
Theorem X7_output_only_grows s cs s' :
  rodata_ok s →
  steps s cs s' →
  (∃ out, stdout s' = stdout s ++ out)
  ∧ (forallb silent cs = true → stdout s' = stdout s).
Proof.
  intros Hro Hsteps. induction Hsteps as [s|s c s1 cs s2 Hstep _ IH].
  - split; [|done]. exists []. by rewrite app_nil_r.
  - destruct (step_frame _ _ _ Hro Hstep) as (Hro1 & _ & _).
    destruct (step_stdout _ _ _ Hro Hstep) as (out1 & Hout1 & Hsilent1).
    destruct (IH Hro1) as [[out2 Hout2] Hsilent2].
    split.
    + exists (out1 ++ out2). by rewrite Hout2, Hout1, app_assoc.
    + cbn [forallb]. intros [Hc Hcs]%andb_prop.
      rewrite (Hsilent2 Hcs), Hout1, (Hsilent1 Hc). by rewrite app_nil_r.
Qed.

Lemma X7_output_only_grows_witness :
  ∃ out, stdout Rex_state_later = stdout Rex_state ++ out.
Proof.
  destruct (X7_output_only_grows Rex_state Rex_calls Rex_state_later) as [Hgrow _].
  - split; reflexivity.
  - exact Rex_run.
  - exact Hgrow.
Defined.

(** X8: a record is never changed by later calls, constructions of other
    records included: after any run of the interface the bytes of its name
    and secret fields, hence the texts read from them, are what they
    were. *)
Theorem X8_records_are_immutable s cs s' d :
  rodata_ok s →
  steps s cs s' →
  is_Some (name_bytes s d) →
  name_bytes s' d = name_bytes s d
  ∧ secret_bytes s' d = secret_bytes s d
  ∧ Dog_name s' d = Dog_name s d
  ∧ Dog_secret s' d = Dog_secret s d.
Proof.
  intros Hro Hsteps [bs Hbs].
  destruct (steps_frame _ _ _ Hro Hsteps) as (_ & _ & Hheap).
  destruct d as [|l o]; [done|]. unfold name_bytes in Hbs.
  destruct (heap s !! l) as [b|] eqn:Hb; [|done].
  apply Hheap in Hb as Hb'.
  assert (Hn : name_bytes s' (Ptr l o) = name_bytes s (Ptr l o))
    by (unfold name_bytes; by rewrite Hb, Hb').
  assert (Hs : secret_bytes s' (Ptr l o) = secret_bytes s (Ptr l o))
    by (unfold secret_bytes; by rewrite Hb, Hb').
  unfold Dog_name, Dog_secret. by rewrite Hn, Hs.
Qed.

Lemma X8_records_are_immutable_witness :
  Dog_name Rex_state_later Rex_dog = Dog_name Rex_state Rex_dog.
Proof.
  destruct (X8_records_are_immutable Rex_state Rex_calls Rex_state_later Rex_dog)
    as (_ & _ & Hname & _).
  - split; reflexivity.
  - exact Rex_run.
  - vm_compute. eauto.
  - exact Hname.
Defined.

Lemma step_blocks s c s' :
  rodata_ok s → step s c s' →
  size (heap s') = size (heap s) + (if allocates c then 1 else 0).
Proof.
  intros Hro Hstep.
  destruct Hstep as [r name s d s' Hm Hnew|d s s' H|d s p s' H|d s s' H].
  - destruct r as [|l g]; [injection Hnew as _ <-; simpl; lia|].
    destruct Hm as [Hfresh Hlen].
    destruct (Dog_new_returns _ _ _ _ _ _ (rodata_dog_secret _ Hro) Hfresh Hlen Hnew)
      as (str & _ & _ & _ & ->).
    cbn [heap set_heap allocates]. rewrite map_size_insert_None by done. lia.
  - apply Dog_speak_state in H as [out ->]. simpl. lia.
  - apply Dog_getSecret_state in H as [-> _]. simpl. lia.
  - apply dog_print_state in H as [out ->]. simpl. lia.
Qed.

(** X9: no function of the interface frees or replaces a block: after any
    run every block is still there with its bytes, and the number of
    blocks has grown by exactly one for each construction the allocator
    served.  Releasing records is left to the caller. *)
Theorem X9_one_block_per_construction s cs s' :
  rodata_ok s →
  steps s cs s' →
  heap s ⊆ heap s'
  ∧ size (heap s') = size (heap s) + length (List.filter allocates cs).
Proof.
  intros Hro Hsteps. split.
  - apply map_subseteq_spec. by apply (steps_frame _ _ _ Hro Hsteps).
  - induction Hsteps as [s|s c s1 cs s2 Hstep _ IH]; [simpl; lia|].
    destruct (step_frame _ _ _ Hro Hstep) as (Hro1 & _ & _).
    rewrite (IH Hro1), (step_blocks _ _ _ Hro Hstep).
    cbn [List.filter]. destruct (allocates c); simpl; lia.
Qed.

Lemma X9_one_block_per_construction_witness :
  size (heap Rex_state_later) = size (heap Rex_state) + 1.
Proof.
  destruct (X9_one_block_per_construction Rex_state Rex_calls Rex_state_later)
    as [_ Hsize].
  - split; reflexivity.
  - exact Rex_run.
  - exact Hsize.
Defined.

Lemma set_stdout_same s : set_stdout (stdout s) s = s.
Proof. by destruct s. Qed.

(** X10: [Dog_speak] can be called again and again on the same record:
    [n] calls in a row are defined and write the same line [n] times,
    changing nothing but standard output. *)
Theorem X10_speak_repeats s d nm n :
  Dog_name s d = Some nm →
  times n (Dog_speak d) s
  = Some (tt, set_stdout
                (stdout s
                   ++ concat (replicate n (nm ++ list_byte_of_string " says: woof!" ++ [LF])))
                s).
Proof.
  intros Hnm. revert s Hnm. induction n as [|n IH]; intros s Hnm.
  - cbn [times replicate concat]. by rewrite app_nil_r, set_stdout_same.
  - cbn [times replicate concat]. unfold mbind, M_bind, bind.
    rewrite (Dog_speak_emits _ _ _ Hnm). rewrite IH by done.
    cbn [stdout set_stdout heap Dog_species]. unfold set_stdout. cbn.
    by rewrite <- !app_assoc.
Qed.

Lemma X10_speak_repeats_witness :
  stdout (state_after (times 2 (Dog_speak Rex_dog)) Rex_state)
  = list_byte_of_string "Rex says: woof!" ++ [LF]
      ++ list_byte_of_string "Rex says: woof!" ++ [LF].
Proof.
  unfold state_after.
  rewrite (X10_speak_repeats Rex_state Rex_dog Rex 2).
  - reflexivity.
  - vm_compute. reflexivity.
Defined.
